(** * CSS selector builder of [05-objects-tasks.js]

    A shallow embedding of the class [MyBuilder] and of the facade
    [cssSelectorBuilder], followed by the properties of the builder:
    ordering and duplication errors, rendering, combination, and the
    frame properties of failed calls and of [combine].

    JavaScript objects are references; the store of all builder objects
    is a finite map from references to records, and a method body is a
    computation over the record [this] points to, which may complete
    normally or abruptly (by [throw]).  Strings are unbounded, and the
    counters of [partsPresence] are natural numbers. *)

From Stdlib Require Import Ascii String.
From stdpp Require Import base list strings gmap sorting relations.

Open Scope string_scope.
Open Scope nat_scope.

(** ** Exceptions and completions *)

(** [new Error(message)]: both errors of the builder are plain [Error]
    objects, told apart by their message. *)
Inductive exn : Type :=
  | Error (message : string).

Definition DuplicateFragmentError : exn :=
  Error "Element, id and pseudo-element should not occur more then one time inside the selector".

Definition OutOfOrderError : exn :=
  Error "Selector parts should be arranged in the following order: element, id, class, attribute, pseudo-class, pseudo-element".

(** How a call ends: with a value, or with a thrown exception. *)
Inductive completion (A : Type) : Type :=
  | Return (v : A)
  | Throw (e : exn).
Arguments Return {A} v.
Arguments Throw {A} e.

(** ** The data model *)

(** [const TYPES_OF_PARTS = { ELEMENT: 0, ID: 1, ... }]. *)
Inductive TYPES_OF_PARTS : Type :=
  | ELEMENT
  | ID
  | CLASS
  | ATTR
  | PSEUDO_CLASS
  | PSEUDO_ELEMENT.

(** The number every key of [TYPES_OF_PARTS] stands for. *)
Definition part_index (t : TYPES_OF_PARTS) : nat :=
  match t with
  | ELEMENT => 0
  | ID => 1
  | CLASS => 2
  | ATTR => 3
  | PSEUDO_CLASS => 4
  | PSEUDO_ELEMENT => 5
  end.

(** The fields of a [MyBuilder] object. *)
Record MyBuilder : Type := {
  line : string;
  partsPresence : list nat
}.

(** References to builder objects. *)
Abbreviation loc := nat (only parsing).

(** ** Method bodies: a computation over [this]

    A method body reads the reference [this], reads and writes the
    fields of the object, and completes with a value or a throw.  A
    throw keeps the fields as they are at that point. *)
Definition Method (A : Type) : Type :=
  loc → MyBuilder → completion A * MyBuilder.

#[global] Instance Method_ret : MRet Method :=
  λ A v _ b, (Return v, b).

#[global] Instance Method_bind : MBind Method :=
  λ A B k m this b,
    match m this b with
    | (Return v, b') => k v this b'
    | (Throw e, b') => (Throw e, b')
    end.

Definition throw {A : Type} (e : exn) : Method A :=
  λ _ b, (Throw e, b).

Definition this_ref : Method loc :=
  λ this b, (Return this, b).

Definition get_line : Method string :=
  λ _ b, (Return (line b), b).

Definition set_line (s : string) : Method unit :=
  λ _ b, (Return tt, {| line := s; partsPresence := partsPresence b |}).

Definition get_partsPresence : Method (list nat) :=
  λ _ b, (Return (partsPresence b), b).

Definition set_partsPresence (pp : list nat) : Method unit :=
  λ _ b, (Return tt, {| line := line b; partsPresence := pp |}).

(** [this.line += s]. *)
Definition append_line (s : string) : Method unit :=
  l ← get_line; set_line (l +:+ s).

(** The truth value of [array[i]] in a condition: a missing cell reads
    [undefined], which is falsy, and a number is truthy unless it is 0. *)
Definition truthy (cell : option nat) : bool :=
  match cell with
  | Some n => negb (n =? 0)%nat
  | None => false
  end.

(** ** The class [MyBuilder] *)
Module MyBuilder.

(** [!this.partsPresence.slice(newPartType + 1)
       .filter((item) => item > 0).length] *)
Definition isCorrectOrderForNewPart (newPartType : TYPES_OF_PARTS) : Method bool :=
  pp ← get_partsPresence;
  mret (length (filter (λ item, 0 < item)
                  (drop (part_index newPartType + 1) pp)) =? 0)%nat.

(** The index is one of the six values of [TYPES_OF_PARTS] and the
    array has six cells ([wf] below), so the cell that [+= 1] reads
    and writes always exists; the [default:] branch of the [switch]
    is never taken and has no counterpart here. *)
Definition addNewPartInLine (str : string) (typeOfPart : TYPES_OF_PARTS) : Method unit :=
  ok ← isCorrectOrderForNewPart typeOfPart;
  if negb ok then throw OutOfOrderError
  else
    pp ← get_partsPresence;
    set_partsPresence
      (<[part_index typeOfPart := default 0 (pp !! part_index typeOfPart) + 1]> pp);;
    match typeOfPart with
    | ELEMENT => append_line str
    | ID => append_line ("#" +:+ str)
    | CLASS => append_line ("." +:+ str)
    | PSEUDO_CLASS => append_line (":" +:+ str)
    | PSEUDO_ELEMENT => append_line ("::" +:+ str)
    | ATTR => append_line ("[" +:+ str +:+ "]")
    end.

(** The body of [constructor(initStr, typeOfPart)]. *)
Definition constructor (initStr : string) (typeOfPart : TYPES_OF_PARTS) : Method unit :=
  set_line "";;
  set_partsPresence (replicate 6 0);;
  addNewPartInLine initStr typeOfPart.

Definition element (str : string) : Method loc :=
  pp ← get_partsPresence;
  if truthy (pp !! part_index ELEMENT) then throw DuplicateFragmentError
  else addNewPartInLine str ELEMENT;; this_ref.

Definition class (str : string) : Method loc :=
  addNewPartInLine str CLASS;; this_ref.

Definition id (str : string) : Method loc :=
  pp ← get_partsPresence;
  if truthy (pp !! part_index ID) then throw DuplicateFragmentError
  else addNewPartInLine str ID;; this_ref.

Definition attr (str : string) : Method loc :=
  addNewPartInLine str ATTR;; this_ref.

Definition pseudoClass (str : string) : Method loc :=
  addNewPartInLine str PSEUDO_CLASS;; this_ref.

Definition pseudoElement (str : string) : Method loc :=
  pp ← get_partsPresence;
  if truthy (pp !! part_index PSEUDO_ELEMENT) then throw DuplicateFragmentError
  else addNewPartInLine str PSEUDO_ELEMENT;; this_ref.

Definition combineTail (combinator lineStr : string) : Method loc :=
  append_line (" " +:+ combinator +:+ " " +:+ lineStr);; this_ref.

Definition stringify : Method string :=
  get_line.

End MyBuilder.

(** ** Programs over the store of objects *)

(** A program transforms the store; it is stuck ([None]) only when it
    follows a reference that is not allocated, which JavaScript rules
    out. *)
Definition Prog (A : Type) : Type :=
  gmap loc MyBuilder → option (completion A * gmap loc MyBuilder).

#[global] Instance Prog_ret : MRet Prog :=
  λ A v h, Some (Return v, h).

#[global] Instance Prog_bind : MBind Prog :=
  λ A B k p h,
    match p h with
    | Some (Return v, h') => k v h'
    | Some (Throw e, h') => Some (Throw e, h')
    | None => None
    end.

(** [o.m(...)]: run the body of the method on the object [o] refers to
    and store the fields back. *)
Definition invoke {A : Type} (o : loc) (m : Method A) : Prog A :=
  λ h,
    match h !! o with
    | Some b => let '(r, b') := m o b in Some (r, <[o := b']> h)
    | None => None
    end.

(** The object [new] hands to the constructor: no field is set yet. *)
Definition blank : MyBuilder :=
  {| line := ""; partsPresence := [] |}.

(** [new MyBuilder(initStr, typeOfPart)]: a fresh reference, the object
    the constructor leaves behind it. *)
Definition new_MyBuilder (initStr : string) (typeOfPart : TYPES_OF_PARTS) : Prog loc :=
  λ h,
    let o := fresh (dom h) in
    match MyBuilder.constructor initStr typeOfPart o blank with
    | (Return _, b) => Some (Return o, <[o := b]> h)
    | (Throw e, _) => Some (Throw e, h)
    end.

(** ** The facade [cssSelectorBuilder] *)
Module cssSelectorBuilder.

Definition element (value : string) : Prog loc :=
  new_MyBuilder value ELEMENT.

Definition id (value : string) : Prog loc :=
  new_MyBuilder value ID.

Definition class (value : string) : Prog loc :=
  new_MyBuilder value CLASS.

Definition attr (value : string) : Prog loc :=
  new_MyBuilder value ATTR.

Definition pseudoClass (value : string) : Prog loc :=
  new_MyBuilder value PSEUDO_CLASS.

Definition pseudoElement (value : string) : Prog loc :=
  new_MyBuilder value PSEUDO_ELEMENT.

(** [selector1.combineTail(combinator, selector2.stringify())] *)
Definition combine (selector1 : loc) (combinator : string) (selector2 : loc) : Prog loc :=
  lineStr ← invoke selector2 MyBuilder.stringify;
  invoke selector1 (MyBuilder.combineTail combinator lineStr).

End cssSelectorBuilder.

(** ** Derived notions used by the statements *)

(** The append method of each kind of part. *)
Definition append_part (t : TYPES_OF_PARTS) (str : string) : Method loc :=
  match t with
  | ELEMENT => MyBuilder.element str
  | ID => MyBuilder.id str
  | CLASS => MyBuilder.class str
  | ATTR => MyBuilder.attr str
  | PSEUDO_CLASS => MyBuilder.pseudoClass str
  | PSEUDO_ELEMENT => MyBuilder.pseudoElement str
  end.

(** The facade entry point of each kind of part. *)
Definition facade_part (t : TYPES_OF_PARTS) (value : string) : Prog loc :=
  match t with
  | ELEMENT => cssSelectorBuilder.element value
  | ID => cssSelectorBuilder.id value
  | CLASS => cssSelectorBuilder.class value
  | ATTR => cssSelectorBuilder.attr value
  | PSEUDO_CLASS => cssSelectorBuilder.pseudoClass value
  | PSEUDO_ELEMENT => cssSelectorBuilder.pseudoElement value
  end.

(** The text a part contributes to [line], as [addNewPartInLine]
    appends it. *)
Definition rendered (t : TYPES_OF_PARTS) (str : string) : string :=
  match t with
  | ELEMENT => str
  | ID => "#" +:+ str
  | CLASS => "." +:+ str
  | ATTR => "[" +:+ str +:+ "]"
  | PSEUDO_CLASS => ":" +:+ str
  | PSEUDO_ELEMENT => "::" +:+ str
  end.

(** The kinds whose methods carry the guard against a second part. *)
Definition single_occurrence (t : TYPES_OF_PARTS) : bool :=
  match t with
  | ELEMENT | ID | PSEUDO_ELEMENT => true
  | CLASS | ATTR | PSEUDO_CLASS => false
  end.

(** The counter of a kind. *)
Definition count_of (t : TYPES_OF_PARTS) (b : MyBuilder) : nat :=
  default 0 (partsPresence b !! part_index t).

(** Six counters, as [new Array(6).fill(0)] makes them. *)
Definition wf (b : MyBuilder) : Prop :=
  length (partsPresence b) = 6.

(** The value [isCorrectOrderForNewPart] computes from the counters. *)
Definition later_free (t : TYPES_OF_PARTS) (pp : list nat) : bool :=
  (length (filter (λ item, 0 < item) (drop (part_index t + 1) pp)) =? 0)%nat.

(** The object after a part of kind [t] went in. *)
Definition added (t : TYPES_OF_PARTS) (str : string) (b : MyBuilder) : MyBuilder :=
  {| line := line b +:+ rendered t str;
     partsPresence := <[part_index t := count_of t b + 1]> (partsPresence b) |}.

(** [o.m1(s1).m2(s2)...]: every append method returns [this], so a
    chain of calls runs the methods one after the other on one object. *)
Fixpoint append_all (parts : list (TYPES_OF_PARTS * string)) : Method loc :=
  match parts with
  | [] => this_ref
  | (t, str) :: rest => append_part t str;; append_all rest
  end.

(** The text of a chain of parts. *)
Definition rendered_all (parts : list (TYPES_OF_PARTS * string)) : string :=
  foldr (λ p acc, rendered p.1 p.2 +:+ acc) "" parts.

(** How often a character occurs in a text. *)
Fixpoint count_char (c : ascii) (s : string) : nat :=
  match s with
  | EmptyString => 0
  | String a rest => (if decide (a = c) then 1 else 0) + count_char c rest
  end.

(** The states a builder object goes through: what the constructor
    leaves, and what any method call leaves, whether it returns or
    throws. *)
Inductive reachable : MyBuilder → Prop :=
  | reachable_new initStr t o r b :
      MyBuilder.constructor initStr t o blank = (r, b) →
      reachable b
  | reachable_append t str o r b b' :
      reachable b →
      append_part t str o b = (r, b') →
      reachable b'
  | reachable_combineTail combinator lineStr o r b b' :
      reachable b →
      MyBuilder.combineTail combinator lineStr o b = (r, b') →
      reachable b'
  | reachable_stringify o r b b' :
      reachable b →
      MyBuilder.stringify o b = (r, b') →
      reachable b'.

(** The object after the first two statements of the constructor. *)
Definition empty_builder : MyBuilder :=
  {| line := ""; partsPresence := replicate 6 0 |}.

(** An object that [cssSelectorBuilder.element("div")] makes. *)
Definition div_builder : MyBuilder := added ELEMENT "div" empty_builder.

(** The object after all parts of a chain went in. *)
Definition added_all (parts : list (TYPES_OF_PARTS * string)) (b : MyBuilder) : MyBuilder :=
  foldl (λ acc p, added p.1 p.2 acc) b parts.

(** The legal chains, in the words of the data model: after a part of
    kind [last], the kinds never step back in the fixed order, and a
    kind that may occur once is not repeated. *)
Fixpoint in_order_after (last : TYPES_OF_PARTS) (rest : list (TYPES_OF_PARTS * string)) : bool :=
  match rest with
  | [] => true
  | (t, _) :: rest' =>
      ((part_index last <? part_index t)
       || ((part_index last =? part_index t) && negb (single_occurrence t)))
      && in_order_after t rest'
  end.

(** The last part that went into the object was of kind [last]. *)
Definition holds_last (last : TYPES_OF_PARTS) (b : MyBuilder) : Prop :=
  wf b ∧ 0 < count_of last b ∧ later_free last (partsPresence b) = true.

#[global] Instance TYPES_OF_PARTS_eq_dec : EqDecision TYPES_OF_PARTS.
Proof. solve_decision. Defined.

(** The repeatable kinds and the character in front of their parts. *)
Definition repeatable_prefix (t : TYPES_OF_PARTS) (c : ascii) : Prop :=
  (t = CLASS ∧ c = "."%char) ∨
  (t = ATTR ∧ c = "["%char) ∨
  (t = PSEUDO_CLASS ∧ c = ":"%char).

(** The left object after [combineTail]. *)
Definition combined (combinator : string) (bL bR : MyBuilder) : MyBuilder :=
  {| line := line bL +:+ " " +:+ combinator +:+ " " +:+ line bR;
     partsPresence := partsPresence bL |}.

(** [combine(element('div').id('main'), '+', element('table').id('data'))
      .stringify()] *)
Definition div_plus_table : Prog string :=
  l ← cssSelectorBuilder.element "div";
  l ← invoke l (MyBuilder.id "main");
  r ← cssSelectorBuilder.element "table";
  r ← invoke r (MyBuilder.id "data");
  s ← cssSelectorBuilder.combine l "+" r;
  invoke s MyBuilder.stringify.

(** One call of a public method on an object, whether it returns or
    throws. *)
Inductive method_step : MyBuilder → MyBuilder → Prop :=
  | step_append t str o r b b' :
      append_part t str o b = (r, b') →
      method_step b b'
  | step_combineTail combinator lineStr o r b b' :
      MyBuilder.combineTail combinator lineStr o b = (r, b') →
      method_step b b'
  | step_stringify o r b b' :
      MyBuilder.stringify o b = (r, b') →
      method_step b b'.

(** A part [q] may come somewhere behind a part [p] of one selector:
    its kind is not earlier, and it is not the same kind when that
    kind carries the guard against a second part. *)
Definition may_follow (p q : TYPES_OF_PARTS * string) : Prop :=
  part_index p.1 ≤ part_index q.1 ∧
  (p.1 = q.1 → single_occurrence p.1 = false).

(** The example of the source comment:
    [combine(element('div').id('main').class('container').class('draggable'),
       '+', combine(element('table').id('data'),
         '~', combine(element('tr').pseudoClass('nth-of-type(even)'),
           ' ', element('td').pseudoClass('nth-of-type(even)')))).stringify()] *)
Definition nested_combine : Prog string :=
  a ← cssSelectorBuilder.element "div";
  a ← invoke a (MyBuilder.id "main");
  a ← invoke a (MyBuilder.class "container");
  a ← invoke a (MyBuilder.class "draggable");
  b ← cssSelectorBuilder.element "table";
  b ← invoke b (MyBuilder.id "data");
  c ← cssSelectorBuilder.element "tr";
  c ← invoke c (MyBuilder.pseudoClass "nth-of-type(even)");
  d ← cssSelectorBuilder.element "td";
  d ← invoke d (MyBuilder.pseudoClass "nth-of-type(even)");
  cd ← cssSelectorBuilder.combine c " " d;
  bcd ← cssSelectorBuilder.combine b "~" cd;
  r ← cssSelectorBuilder.combine a "+" bcd;
  invoke r MyBuilder.stringify.

(** * Properties *)

(** ** Strings *)

Lemma append_cons (a : ascii) (s1 s2 : string) :
  String a s1 +:+ s2 = String a (s1 +:+ s2).
Proof. reflexivity. Qed.

Lemma append_nil_l (s : string) : "" +:+ s = s.
Proof. reflexivity. Qed.

Lemma append_assoc (s1 s2 s3 : string) :
  (s1 +:+ s2) +:+ s3 = s1 +:+ (s2 +:+ s3).
Proof.
  induction s1 as [|a s1 IH]; [done |].
  rewrite !append_cons. by f_equal.
Qed.

Lemma append_empty_r (s : string) : s +:+ "" = s.
Proof.
  induction s as [|a s IH]; [done |].
  rewrite append_cons. by f_equal.
Qed.

Lemma count_char_app (c : ascii) (s1 s2 : string) :
  count_char c (s1 +:+ s2) = count_char c s1 + count_char c s2.
Proof.
  induction s1 as [|a s1 IH]; [done |].
  rewrite append_cons. simpl. rewrite IH. lia.
Qed.

Lemma errors_differ : DuplicateFragmentError ≠ OutOfOrderError.
Proof. discriminate. Qed.

(** ** The ordering check on the counters *)

Lemma no_positive_cell (l : list nat) :
  length (filter (λ item, 0 < item) l) = 0 ↔ ∀ i n, l !! i = Some n → n = 0.
Proof.
  induction l as [|x l IH]; simpl.
  - split; [intros _ i n Hi; by destruct i | done].
  - rewrite filter_cons. destruct (decide (0 < x)) as [Hx|Hx]; simpl.
    + split; [done | intros H]. specialize (H 0 x eq_refl). lia.
    + rewrite IH. split.
      * intros H [|i] n Hi; simpl in Hi; [simplify_eq; lia | eauto].
      * intros H i n Hi. apply (H (S i) n Hi).
Qed.

Lemma later_free_true (t : TYPES_OF_PARTS) (pp : list nat) :
  later_free t pp = true ↔
  ∀ i n, part_index t < i → pp !! i = Some n → n = 0.
Proof.
  unfold later_free. rewrite Nat.eqb_eq, no_positive_cell. split.
  - intros H i n Hlt Hi.
    apply (H (i - (part_index t + 1)) n). rewrite lookup_drop.
    by replace (part_index t + 1 + (i - (part_index t + 1))) with i by lia.
  - intros H i n Hi. rewrite lookup_drop in Hi.
    apply (H (part_index t + 1 + i) n); [lia | done].
Qed.

Lemma later_free_false (t : TYPES_OF_PARTS) (pp : list nat) :
  later_free t pp = false ↔
  ∃ i n, part_index t < i ∧ pp !! i = Some n ∧ 0 < n.
Proof.
  split.
  - intros Hf. unfold later_free in Hf. apply Nat.eqb_neq in Hf.
    remember (drop (part_index t + 1) pp) as l eqn:El.
    assert (∃ i n, l !! i = Some n ∧ 0 < n) as (i & n & Hi & Hn).
    { clear El. induction l as [|x l IH]; simpl in Hf; [done |].
      rewrite filter_cons in Hf. destruct (decide (0 < x)) as [Hx|Hx].
      - by exists 0, x.
      - destruct (IH Hf) as (i & n & Hi & Hn). by exists (S i), n. }
    subst l. rewrite lookup_drop in Hi.
    exists (part_index t + 1 + i), n. split; [lia | done].
  - intros (i & n & Hlt & Hi & Hn).
    destruct (later_free t pp) eqn:E; [| done].
    rewrite later_free_true in E. specialize (E i n Hlt Hi). lia.
Qed.

Lemma later_free_insert_le (t u : TYPES_OF_PARTS) (v : nat) (pp : list nat) :
  part_index u ≤ part_index t →
  later_free t (<[part_index u := v]> pp) = later_free t pp.
Proof.
  intros Hle. unfold later_free. by rewrite drop_insert_lt by lia.
Qed.

(** ** What a call does, in closed form *)

Lemma isCorrectOrderForNewPart_run t o b :
  MyBuilder.isCorrectOrderForNewPart t o b = (Return (later_free t (partsPresence b)), b).
Proof. done. Qed.

Lemma addNewPartInLine_run str t o b :
  MyBuilder.addNewPartInLine str t o b =
  if later_free t (partsPresence b) then (Return tt, added t str b)
  else (Throw OutOfOrderError, b).
Proof.
  unfold MyBuilder.addNewPartInLine, mbind, Method_bind.
  rewrite isCorrectOrderForNewPart_run.
  destruct (later_free t (partsPresence b)); [| done].
  by destruct t.
Qed.

Lemma truthy_count_of t b :
  truthy (partsPresence b !! part_index t) = negb (count_of t b =? 0)%nat.
Proof. unfold count_of. by destruct (partsPresence b !! part_index t). Qed.

Lemma append_part_run t str o b :
  append_part t str o b =
  if single_occurrence t && negb (count_of t b =? 0)%nat
  then (Throw DuplicateFragmentError, b)
  else if later_free t (partsPresence b) then (Return o, added t str b)
  else (Throw OutOfOrderError, b).
Proof.
  destruct t; unfold append_part, single_occurrence,
      MyBuilder.element, MyBuilder.id, MyBuilder.class, MyBuilder.attr,
      MyBuilder.pseudoClass, MyBuilder.pseudoElement;
    unfold mbind, Method_bind, get_partsPresence;
    rewrite ?truthy_count_of, ?andb_true_l, ?andb_false_l;
    try (destruct (negb _); [done |]);
    rewrite addNewPartInLine_run;
    by destruct (later_free _ _).
Qed.

Lemma append_all_nil o b : append_all [] o b = (Return o, b).
Proof. done. Qed.

Lemma append_all_cons t str rest o b :
  append_all ((t, str) :: rest) o b =
  match append_part t str o b with
  | (Return _, b') => append_all rest o b'
  | (Throw e, b') => (Throw e, b')
  end.
Proof.
  simpl. unfold mbind, Method_bind.
  by destruct (append_part t str o b) as [[v|e] b'].
Qed.

(** ** The counters *)

Lemma part_index_inj t u : part_index t = part_index u → t = u.
Proof. by destruct t, u. Qed.

Lemma part_index_lt t : part_index t < 6.
Proof. destruct t; simpl; lia. Qed.

Lemma part_of_index i : i < 6 → ∃ t, part_index t = i.
Proof.
  intros Hi.
  destruct i as [|[|[|[|[|[|i]]]]]]; [| | | | | | lia].
  - by exists ELEMENT.
  - by exists ID.
  - by exists CLASS.
  - by exists ATTR.
  - by exists PSEUDO_CLASS.
  - by exists PSEUDO_ELEMENT.
Qed.

Lemma wf_lookup t b :
  wf b → partsPresence b !! part_index t = Some (count_of t b).
Proof.
  intros Hwf. unfold count_of.
  destruct (lookup_lt_is_Some_2 (partsPresence b) (part_index t)) as [n Hn].
  - rewrite Hwf. apply part_index_lt.
  - by rewrite Hn.
Qed.

Lemma wf_added t str b : wf b → wf (added t str b).
Proof. unfold wf, added; simpl. by rewrite length_insert. Qed.

Lemma count_of_added_same t str b :
  wf b → count_of t (added t str b) = count_of t b + 1.
Proof.
  intros Hwf. unfold count_of at 1, added; simpl.
  rewrite list_lookup_insert_eq; [done |].
  rewrite Hwf. apply part_index_lt.
Qed.

Lemma count_of_added_ne t u str b :
  t ≠ u → count_of u (added t str b) = count_of u b.
Proof.
  intros Hne. unfold count_of, added; simpl.
  rewrite list_lookup_insert_ne; [done |].
  intros E. by apply Hne, part_index_inj.
Qed.

Lemma line_added t str b : line (added t str b) = line b +:+ rendered t str.
Proof. done. Qed.

(** With six counters, the cells behind the one of [t] are the counters
    of the kinds after [t]. *)
Lemma later_free_counts t b :
  wf b →
  later_free t (partsPresence b) = true ↔
  ∀ u, part_index t < part_index u → count_of u b = 0.
Proof.
  intros Hwf. rewrite later_free_true. split.
  - intros H u Hlt. apply (H (part_index u)); [done |]. by apply wf_lookup.
  - intros H i n Hlt Hi.
    destruct (part_of_index i) as [u <-].
    { rewrite <- Hwf. by apply lookup_lt_Some with n. }
    rewrite wf_lookup in Hi by done. simplify_eq. by apply H.
Qed.

Lemma later_taken_counts t b :
  wf b →
  later_free t (partsPresence b) = false ↔
  ∃ u, part_index t < part_index u ∧ 0 < count_of u b.
Proof.
  intros Hwf. rewrite later_free_false. split.
  - intros (i & n & Hlt & Hi & Hn).
    destruct (part_of_index i) as [u <-].
    { rewrite <- Hwf. by apply lookup_lt_Some with n. }
    exists u. rewrite wf_lookup in Hi by done. by simplify_eq.
  - intros (u & Hlt & Hn).
    exists (part_index u), (count_of u b). by rewrite wf_lookup.
Qed.

Lemma later_free_added t u str b :
  part_index u ≤ part_index t →
  later_free t (partsPresence (added u str b)) = later_free t (partsPresence b).
Proof. intros Hle. unfold added; simpl. by apply later_free_insert_le. Qed.

(** ** The constructor and the store *)

Lemma constructor_run initStr t o b0 :
  MyBuilder.constructor initStr t o b0 = (Return tt, added t initStr empty_builder).
Proof.
  unfold MyBuilder.constructor, mbind, Method_bind; simpl.
  rewrite addNewPartInLine_run.
  by destruct t.
Qed.

Lemma wf_empty_builder : wf empty_builder.
Proof. done. Qed.

Lemma new_MyBuilder_run initStr t h :
  new_MyBuilder initStr t h =
  Some (Return (fresh (dom h)), <[fresh (dom h) := added t initStr empty_builder]> h).
Proof. unfold new_MyBuilder. by rewrite constructor_run. Qed.

Lemma facade_part_run t value h :
  facade_part t value h =
  Some (Return (fresh (dom h)), <[fresh (dom h) := added t value empty_builder]> h).
Proof. destruct t; apply new_MyBuilder_run. Qed.

Lemma fresh_unallocated (h : gmap loc MyBuilder) : h !! fresh (dom h) = None.
Proof. apply not_elem_of_dom, is_fresh. Qed.

Lemma invoke_run {A} (m : Method A) o b r b' (h : gmap loc MyBuilder) :
  h !! o = Some b → m o b = (r, b') →
  invoke o m h = Some (r, <[o := b']> h).
Proof. intros Ho Hm. unfold invoke. by rewrite Ho, Hm. Qed.

Lemma invoke_unchanged {A} (m : Method A) o b r (h : gmap loc MyBuilder) :
  h !! o = Some b → m o b = (r, b) →
  invoke o m h = Some (r, h).
Proof.
  intros Ho Hm. rewrite (invoke_run m o b r b) by done.
  by rewrite insert_id.
Qed.

(** A call on the object the facade has just made. *)
Lemma facade_then_invoke {A} t value (m : Method A) h :
  (o ← facade_part t value; invoke o m) h =
  let o := fresh (dom h) in
  let '(r, b') := m o (added t value empty_builder) in
  Some (r, <[o := b']> h).
Proof.
  unfold mbind at 1, Prog_bind. rewrite facade_part_run. simpl.
  unfold invoke. rewrite lookup_insert_eq.
  destruct (m (fresh (dom h)) (added t value empty_builder)) as [r b'].
  by rewrite insert_insert_eq.
Qed.

Lemma combineTail_run combinator lineStr o b :
  MyBuilder.combineTail combinator lineStr o b =
  (Return o, {| line := line b +:+ " " +:+ combinator +:+ " " +:+ lineStr;
                partsPresence := partsPresence b |}).
Proof. done. Qed.

Lemma stringify_run o b : MyBuilder.stringify o b = (Return (line b), b).
Proof. done. Qed.

(** ** The states of a builder *)

Lemma reachable_wf b : reachable b → wf b.
Proof.
  induction 1 as [initStr t o r b Hc
                 | t str o r b b' _ IH Ha
                 | c s o r b b' _ IH Hc
                 | o r b b' _ IH Hs].
  - rewrite constructor_run in Hc. simplify_eq.
    apply wf_added, wf_empty_builder.
  - rewrite append_part_run in Ha.
    repeat case_match; simplify_eq; auto using wf_added.
  - rewrite combineTail_run in Hc. by simplify_eq.
  - rewrite stringify_run in Hs. by simplify_eq.
Qed.

(** ** Two parts, one after the other *)

Lemma guard_open t b :
  (single_occurrence t = true → count_of t b = 0) →
  single_occurrence t && negb (count_of t b =? 0) = false.
Proof.
  intros H. destruct (single_occurrence t); [| done].
  by rewrite H.
Qed.

Lemma guard_open_iff t b :
  single_occurrence t && negb (count_of t b =? 0) = false ↔
  (single_occurrence t = true → count_of t b = 0).
Proof.
  split; [| apply guard_open].
  destruct (single_occurrence t); [| done]. simpl.
  intros H%negb_false_iff%Nat.eqb_eq. done.
Qed.

Lemma guard_shut t b :
  single_occurrence t = true → 0 < count_of t b →
  single_occurrence t && negb (count_of t b =? 0) = true.
Proof.
  intros -> Hn. simpl. apply negb_true_iff, Nat.eqb_neq. lia.
Qed.

Lemma count_of_empty_builder t : count_of t empty_builder = 0.
Proof. by destruct t. Qed.

Lemma later_free_empty_builder t : later_free t (partsPresence empty_builder) = true.
Proof. by destruct t. Qed.

Lemma later_then_earlier A B sa sb o b :
  wf b → part_index B < part_index A →
  (single_occurrence B = true → count_of B b = 0) →
  append_part B sb o (added A sa b) = (Throw OutOfOrderError, added A sa b).
Proof.
  intros Hwf Hlt Hguard.
  assert (A ≠ B) as Hne by (intros ->; lia).
  rewrite append_part_run, guard_open.
  - replace (later_free B (partsPresence (added A sa b))) with false; [done |].
    symmetry. apply later_taken_counts; [by apply wf_added |].
    exists A. split; [done |]. rewrite count_of_added_same by done. lia.
  - by rewrite count_of_added_ne.
Qed.

Lemma earlier_then_later A B sa sb o b :
  wf b → part_index B < part_index A →
  (single_occurrence B = true → count_of B b = 0) →
  later_free B (partsPresence b) = true →
  append_part B sb o b = (Return o, added B sb b) ∧
  append_part A sa o (added B sb b) = (Return o, added A sa (added B sb b)).
Proof.
  intros Hwf Hlt Hguard Hfree.
  assert (B ≠ A) as Hne by (intros ->; lia).
  pose proof (proj1 (later_free_counts B b Hwf) Hfree) as Hzero.
  split.
  - by rewrite append_part_run, guard_open, Hfree.
  - rewrite append_part_run, guard_open.
    + rewrite later_free_added by lia.
      replace (later_free A (partsPresence b)) with true; [done |].
      symmetry. apply later_free_counts; [done |].
      intros u Hu. apply Hzero. lia.
    + intros _. rewrite count_of_added_ne by done. by apply Hzero.
Qed.

Lemma reachable_fresh t value : reachable (added t value empty_builder).
Proof. by apply (reachable_new value t 0 (Return tt)), constructor_run. Qed.

(** C1, as stated, fails: on the builder of [element("div")], a part of
    the later kind CLASS and then one of the earlier kind ELEMENT ends
    in the error for a second element, not in the error for the order;
    and on the builder of [pseudoElement("after")], ELEMENT and then ID
    does not succeed. *)
Lemma order_error_not_on_every_instance :
  div_builder = {| line := "div"; partsPresence := [1; 0; 0; 0; 0; 0] |} ∧
  reachable div_builder ∧
  part_index ELEMENT < part_index CLASS ∧
  append_part CLASS "x" 0 div_builder =
    (Return 0, {| line := "div.x"; partsPresence := [1; 0; 1; 0; 0; 0] |}) ∧
  append_part ELEMENT "y" 0 {| line := "div.x"; partsPresence := [1; 0; 1; 0; 0; 0] |} =
    (Throw DuplicateFragmentError,
     {| line := "div.x"; partsPresence := [1; 0; 1; 0; 0; 0] |}) ∧
  DuplicateFragmentError ≠ OutOfOrderError ∧
  fst <$> (o ← cssSelectorBuilder.element "div";
           o ← invoke o (MyBuilder.class "x");
           invoke o (MyBuilder.element "y")) ∅ =
    Some (Throw DuplicateFragmentError) ∧
  reachable (added PSEUDO_ELEMENT "after" empty_builder) ∧
  part_index ELEMENT < part_index ID ∧
  fst <$> (o ← cssSelectorBuilder.pseudoElement "after";
           o ← invoke o (MyBuilder.element "p");
           invoke o (MyBuilder.id "q")) ∅ =
    Some (Throw OutOfOrderError).
Proof.
  split; [reflexivity |].
  split; [apply reachable_fresh |].
  split; [simpl; lia |].
  split; [reflexivity |].
  split; [reflexivity |].
  split; [apply errors_differ |].
  split; [reflexivity |].
  split; [apply reachable_fresh |].
  split; [simpl; lia | reflexivity].
Qed.

(** C1 (amended): let A be strictly later than B in the order ELEMENT,
    ID, CLASS, ATTR, PSEUDO_CLASS, PSEUDO_ELEMENT.  On a builder fresh
    from the facade entry point of A, appending B raises the order
    error, and on one fresh from the entry point of B, appending A
    succeeds.  On an arbitrary builder the guards against a second
    part, which come first, decide: appending A and then B ends in the
    order error exactly when the guard of A is open (A is repeatable,
    or no A is held) and either a part later than A is held or the
    guard of B is open; appending B and then A succeeds exactly when
    the guard of B is open and no part later than B is held.  The
    ordering check fails exactly when the counter of some kind strictly
    later than the new one is not zero. *)
Theorem order_of_two_kinds (A B : TYPES_OF_PARTS) (sa sb : string) :
  part_index B < part_index A →
  (∀ h, (o ← facade_part A sa; invoke o (append_part B sb)) h =
        Some (Throw OutOfOrderError,
              <[fresh (dom h) := added A sa empty_builder]> h)) ∧
  (∀ h, (o ← facade_part B sb; invoke o (append_part A sa)) h =
        Some (Return (fresh (dom h)),
              <[fresh (dom h) := added A sa (added B sb empty_builder)]> h)) ∧
  (∀ o b,
      wf b →
      fst (append_all [(A, sa); (B, sb)] o b) = Throw OutOfOrderError ↔
      (single_occurrence A = true → count_of A b = 0) ∧
      (later_free A (partsPresence b) = false ∨
       (single_occurrence B = true → count_of B b = 0))) ∧
  (∀ o b,
      wf b →
      fst (append_all [(B, sb); (A, sa)] o b) = Return o ↔
      (single_occurrence B = true → count_of B b = 0) ∧
      later_free B (partsPresence b) = true) ∧
  (∀ t o b,
      wf b →
      ∃ ok, MyBuilder.isCorrectOrderForNewPart t o b = (Return ok, b) ∧
            (ok = false ↔ ∃ u, part_index t < part_index u ∧ 0 < count_of u b)).
Proof.
  intros Hlt.
  split.
  { intros h. rewrite facade_then_invoke. simpl.
    rewrite later_then_earlier;
      auto using wf_empty_builder, count_of_empty_builder. }
  split.
  { intros h. rewrite facade_then_invoke. simpl.
    destruct (earlier_then_later A B sa sb (fresh (dom h)) empty_builder)
      as [_ ->]; auto using wf_empty_builder, count_of_empty_builder,
                   later_free_empty_builder. }
  split.
  { intros o b Hwf. rewrite append_all_cons, append_part_run.
    rewrite <- !guard_open_iff.
    destruct (single_occurrence A && negb (count_of A b =? 0)); cbn [fst].
    { split; [discriminate | by intros [? _]]. }
    destruct (later_free A (partsPresence b)) eqn:HfreeA;
      [| by split; auto].
    destruct (single_occurrence B && negb (count_of B b =? 0)) eqn:HguardB.
    - rewrite append_all_cons, append_part_run.
      rewrite count_of_added_ne by (intros ->; lia). rewrite HguardB.
      cbn [fst]. split; [discriminate | by intros [_ [?|?]]].
    - pose proof (proj1 (guard_open_iff B b) HguardB) as HB.
      rewrite append_all_cons, later_then_earlier by done.
      cbn [fst]. by split; auto. }
  split.
  { intros o b Hwf. rewrite append_all_cons, append_part_run.
    rewrite <- guard_open_iff.
    destruct (single_occurrence B && negb (count_of B b =? 0)) eqn:HguardB;
      cbn [fst].
    { split; [discriminate | by intros [? _]]. }
    destruct (later_free B (partsPresence b)) eqn:HfreeB.
    - pose proof (proj1 (guard_open_iff B b) HguardB) as HB.
      destruct (earlier_then_later A B sa sb o b) as [_ HA]; [done.. |].
      rewrite append_all_cons, HA. cbn [fst]. by split; auto.
    - cbn [fst]. split; [discriminate | by intros [_ ?]]. }
  intros t o b Hwf. exists (later_free t (partsPresence b)).
  split; [apply isCorrectOrderForNewPart_run | by apply later_taken_counts].
Qed.

Lemma order_of_two_kinds_witness :
  part_index ELEMENT < part_index ID ∧
  (o ← facade_part ID "main"; invoke o (append_part ELEMENT "div")) ∅ =
    Some (Throw OutOfOrderError,
          <[fresh (dom (∅ : gmap loc MyBuilder)) := added ID "main" empty_builder]> ∅).
Proof.
  split; [simpl; lia |].
  apply (order_of_two_kinds ID ELEMENT "main" "div"). simpl; lia.
Defined.

(** ** A second part of a kind that may occur once *)

Lemma single_occurrence_kinds t :
  t = ELEMENT ∨ t = ID ∨ t = PSEUDO_ELEMENT ↔ single_occurrence t = true.
Proof. destruct t; simpl; intuition congruence. Qed.

Lemma append_part_duplicate t str o b :
  single_occurrence t = true → 0 < count_of t b →
  append_part t str o b = (Throw DuplicateFragmentError, b).
Proof. intros Ht Hn. by rewrite append_part_run, guard_shut. Qed.

(** C2: for ELEMENT, ID and PSEUDO_ELEMENT, on a builder that holds a
    part of the kind, appending another part of the kind raises the
    duplicate error; so does the second of two appends in a row, and
    the first append on a builder that the facade seeded with the
    kind. *)
Theorem second_part_of_single_kind_rejected (t : TYPES_OF_PARTS) (s s' : string) :
  t = ELEMENT ∨ t = ID ∨ t = PSEUDO_ELEMENT →
  (∀ o b, 0 < count_of t b →
          append_part t s' o b = (Throw DuplicateFragmentError, b)) ∧
  (∀ o b b1, wf b →
             append_part t s o b = (Return o, b1) →
             append_part t s' o b1 = (Throw DuplicateFragmentError, b1)) ∧
  (∀ h, (o ← facade_part t s; invoke o (append_part t s')) h =
        Some (Throw DuplicateFragmentError,
              <[fresh (dom h) := added t s empty_builder]> h)).
Proof.
  intros Ht%single_occurrence_kinds. repeat split.
  - intros o b Hn. by apply append_part_duplicate.
  - intros o b b1 Hwf Ha. rewrite append_part_run in Ha.
    repeat case_match; simplify_eq.
    apply append_part_duplicate; [done |].
    rewrite count_of_added_same by done. lia.
  - intros h. rewrite facade_then_invoke. simpl.
    rewrite append_part_duplicate; [done.. |].
    rewrite count_of_added_same by apply wf_empty_builder. lia.
Qed.

Lemma second_part_of_single_kind_rejected_witness :
  (o ← facade_part ELEMENT "div"; invoke o (append_part ELEMENT "span")) ∅ =
  Some (Throw DuplicateFragmentError,
        <[fresh (dom (∅ : gmap loc MyBuilder)) := div_builder]> ∅).
Proof.
  apply (second_part_of_single_kind_rejected ELEMENT "div" "span"). by left.
Defined.

(** ** A call that throws *)

(** C9: an append call that throws leaves the text and the six counters
    of the object as they were before the call, and thereby the whole
    store; what it throws is one of the two errors. *)
Theorem failed_append_changes_nothing
    (t : TYPES_OF_PARTS) (str : string) (o : loc) (b b' : MyBuilder) (e : exn) :
  append_part t str o b = (Throw e, b') →
  b' = b ∧
  line b' = line b ∧
  partsPresence b' = partsPresence b ∧
  (e = DuplicateFragmentError ∨ e = OutOfOrderError) ∧
  (∀ h : gmap loc MyBuilder,
      h !! o = Some b → invoke o (append_part t str) h = Some (Throw e, h)).
Proof.
  intros Ha.
  assert (b' = b ∧ (e = DuplicateFragmentError ∨ e = OutOfOrderError))
    as [-> He].
  { rewrite append_part_run in Ha.
    destruct (single_occurrence t && negb (count_of t b =? 0));
      [by simplify_eq; auto |].
    destruct (later_free t (partsPresence b)); simplify_eq; auto. }
  repeat split; [done |].
  intros h Ho. by apply invoke_unchanged with b.
Qed.

Lemma failed_append_changes_nothing_witness :
  append_part ID "main" 0 (added CLASS "x" div_builder) =
    (Throw OutOfOrderError, added CLASS "x" div_builder) ∧
  ∀ h : gmap loc MyBuilder,
    h !! 0 = Some (added CLASS "x" div_builder) →
    invoke 0 (append_part ID "main") h = Some (Throw OutOfOrderError, h).
Proof.
  split; [reflexivity |].
  apply (failed_append_changes_nothing ID "main" 0
           (added CLASS "x" div_builder) (added CLASS "x" div_builder)
           OutOfOrderError).
  reflexivity.
Defined.

(** ** Which of the two errors *)

(** C10: for ELEMENT, ID and PSEUDO_ELEMENT, when the builder holds a
    part of the kind and also a part of a strictly later kind, the call
    raises the duplicate error and not the order error, although the
    ordering check, which the guard precedes, fails on this builder. *)
Theorem duplicate_error_before_order_error
    (t : TYPES_OF_PARTS) (str : string) (o : loc) (b : MyBuilder) :
  wf b →
  t = ELEMENT ∨ t = ID ∨ t = PSEUDO_ELEMENT →
  0 < count_of t b →
  (∃ u, part_index t < part_index u ∧ 0 < count_of u b) →
  append_part t str o b = (Throw DuplicateFragmentError, b) ∧
  append_part t str o b ≠ (Throw OutOfOrderError, b) ∧
  MyBuilder.addNewPartInLine str t o b = (Throw OutOfOrderError, b).
Proof.
  intros Hwf Ht%single_occurrence_kinds Hn Hlater.
  assert (append_part t str o b = (Throw DuplicateFragmentError, b)) as Hd
    by by apply append_part_duplicate.
  split; [done |]. split.
  - rewrite Hd. discriminate.
  - rewrite addNewPartInLine_run.
    by rewrite (proj2 (later_taken_counts t b Hwf) Hlater).
Qed.

Lemma duplicate_error_before_order_error_witness :
  append_part ELEMENT "span" 0 (added CLASS "x" div_builder) =
    (Throw DuplicateFragmentError, added CLASS "x" div_builder).
Proof.
  apply (duplicate_error_before_order_error ELEMENT "span" 0
           (added CLASS "x" div_builder)).
  - reflexivity.
  - by left.
  - vm_compute. lia.
  - exists CLASS. vm_compute. split; lia.
Defined.

(** ** Chains of appends *)

Lemma rendered_all_cons t str rest :
  rendered_all ((t, str) :: rest) = rendered t str +:+ rendered_all rest.
Proof. done. Qed.

Lemma line_added_all parts b :
  line (added_all parts b) = line b +:+ rendered_all parts.
Proof.
  revert b. induction parts as [|[t str] rest IH]; intros b.
  - simpl. by rewrite append_empty_r.
  - change (added_all ((t, str) :: rest) b)
      with (added_all rest (added t str b)).
    rewrite IH, line_added, rendered_all_cons. apply append_assoc.
Qed.

Lemma holds_last_fresh t value : holds_last t (added t value empty_builder).
Proof.
  split; [apply wf_added, wf_empty_builder |]. split.
  - rewrite count_of_added_same by apply wf_empty_builder. lia.
  - rewrite later_free_added by done. apply later_free_empty_builder.
Qed.

(** One more part on an object whose last part was of kind [last]. *)
Lemma append_part_after last t str o b :
  holds_last last b →
  if (part_index last <? part_index t)
     || ((part_index last =? part_index t) && negb (single_occurrence t))
  then append_part t str o b = (Return o, added t str b) ∧
       holds_last t (added t str b)
  else ∃ e, append_part t str o b = (Throw e, b).
Proof.
  intros (Hwf & Hpos & Hfree).
  pose proof (proj1 (later_free_counts last b Hwf) Hfree) as Hzero.
  rewrite append_part_run.
  destruct (part_index last <? part_index t) eqn:Hlt; simpl.
  - apply Nat.ltb_lt in Hlt.
    assert (later_free t (partsPresence b) = true) as Ht.
    { apply later_free_counts; [done |]. intros u Hu. apply Hzero. lia. }
    rewrite guard_open by (intros _; by apply Hzero). rewrite Ht.
    split; [done |]. split; [by apply wf_added |]. split.
    + rewrite count_of_added_same by done. lia.
    + by rewrite later_free_added.
  - apply Nat.ltb_ge in Hlt.
    destruct (part_index last =? part_index t) eqn:Heq; simpl.
    + apply Nat.eqb_eq, part_index_inj in Heq. subst t.
      destruct (single_occurrence last) eqn:Hs; simpl.
      * replace (negb (count_of last b =? 0)) with true; [by eexists |].
        symmetry. apply negb_true_iff, Nat.eqb_neq. lia.
      * rewrite Hfree. split; [done |]. split; [by apply wf_added |]. split.
        -- rewrite count_of_added_same by done. lia.
        -- by rewrite later_free_added.
    + apply Nat.eqb_neq in Heq.
      destruct (single_occurrence t && negb (count_of t b =? 0));
        [by eexists |].
      replace (later_free t (partsPresence b)) with false; [by eexists |].
      symmetry. apply later_taken_counts; [done |].
      exists last. split; [lia | done].
Qed.

(** A chain goes through exactly when it is legal. *)
Lemma append_all_after last rest o b :
  holds_last last b →
  if in_order_after last rest
  then append_all rest o b = (Return o, added_all rest b)
  else ∃ e b', append_all rest o b = (Throw e, b').
Proof.
  revert last b. induction rest as [|[t str] rest IH]; intros last b Hb.
  - done.
  - simpl in_order_after. rewrite append_all_cons.
    pose proof (append_part_after last t str o b Hb) as Hstep.
    destruct (_ || _); simpl.
    + destruct Hstep as [-> Hb']. apply (IH t _ Hb').
    + destruct Hstep as [e ->]. by eexists _, _.
Qed.

(** ** Calls on the object the facade has just made *)

Lemma invoke_insert {A} (m : Method A) o b (h : gmap loc MyBuilder) :
  invoke o m (<[o := b]> h) =
  let '(r, b') := m o b in Some (r, <[o := b']> h).
Proof.
  unfold invoke. rewrite lookup_insert_eq.
  destruct (m o b) as [r b']. by rewrite insert_insert_eq.
Qed.

Lemma facade_chain_stringify t value rest b' h :
  append_all rest (fresh (dom h)) (added t value empty_builder)
    = (Return (fresh (dom h)), b') →
  (o ← facade_part t value; o ← invoke o (append_all rest);
   invoke o MyBuilder.stringify) h =
  Some (Return (line b'), <[fresh (dom h) := b']> h).
Proof.
  intros Hchain. unfold mbind, Prog_bind.
  rewrite facade_part_run, invoke_insert, Hchain, invoke_insert, stringify_run.
  done.
Qed.

Lemma invoke_insert_return {A B} (m : Method A) (k : A → Prog B) o b v b'
    (h : gmap loc MyBuilder) :
  m o b = (Return v, b') →
  (x ← invoke o m; k x) (<[o := b]> h) = k v (<[o := b']> h).
Proof.
  intros Hm. unfold mbind, Prog_bind. by rewrite invoke_insert, Hm.
Qed.

Lemma count_of_fresh t u value :
  count_of u (added t value empty_builder) = if decide (u = t) then 1 else 0.
Proof.
  destruct (decide (u = t)) as [->|Hne].
  - by rewrite count_of_added_same, count_of_empty_builder
      by apply wf_empty_builder.
  - by rewrite count_of_added_ne, count_of_empty_builder.
Qed.

(** C4: each of the six facade entry points allocates a new object and
    leaves in it what appending one part of its kind to an empty
    builder yields: the text of that part, a counter of one for its
    kind and of zero for the others.  For every legal chain of appends
    behind it, [stringify] returns the parts in the order of the
    appends, each in its form: the element verbatim, [#id], [.class],
    [[attr]], [:pseudoClass], [::pseudoElement].  In particular
    [id('main').class('container').class('editable').stringify()] is
    [#main.container.editable]. *)
Theorem facade_seeds_and_legal_chain_renders
    (t : TYPES_OF_PARTS) (value : string)
    (rest : list (TYPES_OF_PARTS * string)) (h : gmap loc MyBuilder) :
  in_order_after t rest = true →
  h !! fresh (dom h) = None ∧
  facade_part t value h =
    Some (Return (fresh (dom h)),
          <[fresh (dom h) := added t value empty_builder]> h) ∧
  append_part t value (fresh (dom h)) empty_builder =
    (Return (fresh (dom h)), added t value empty_builder) ∧
  line (added t value empty_builder) = rendered t value ∧
  (∀ u, count_of u (added t value empty_builder) = if decide (u = t) then 1 else 0) ∧
  (o ← facade_part t value; o ← invoke o (append_all rest);
   invoke o MyBuilder.stringify) h =
    Some (Return (rendered_all ((t, value) :: rest)),
          <[fresh (dom h) := added_all rest (added t value empty_builder)]> h) ∧
  (∀ str,
      rendered ELEMENT str = str ∧
      rendered ID str = "#" +:+ str ∧
      rendered CLASS str = "." +:+ str ∧
      rendered ATTR str = "[" +:+ str +:+ "]" ∧
      rendered PSEUDO_CLASS str = ":" +:+ str ∧
      rendered PSEUDO_ELEMENT str = "::" +:+ str) ∧
  (s ← cssSelectorBuilder.id "main";
   s ← invoke s (MyBuilder.class "container");
   s ← invoke s (MyBuilder.class "editable");
   invoke s MyBuilder.stringify) h =
    Some (Return "#main.container.editable",
          <[fresh (dom h) := {| line := "#main.container.editable";
                                partsPresence := [0; 1; 2; 0; 0; 0] |}]> h).
Proof.
  intros Hlegal.
  split; [apply fresh_unallocated |].
  split; [apply facade_part_run |].
  split.
  { by rewrite append_part_run, guard_open, later_free_empty_builder
      by (intros _; apply count_of_empty_builder). }
  split; [done |].
  split; [intros u; apply count_of_fresh |].
  split.
  { pose proof (append_all_after t rest (fresh (dom h))
                  (added t value empty_builder) (holds_last_fresh t value))
      as Hchain.
    rewrite Hlegal in Hchain.
    rewrite (facade_chain_stringify _ _ _ _ _ Hchain).
    by rewrite line_added_all. }
  split; [done |].
  unfold mbind at 1, Prog_bind at 1, cssSelectorBuilder.id.
  rewrite new_MyBuilder_run.
  erewrite invoke_insert_return; [| reflexivity].
  erewrite invoke_insert_return; [| reflexivity].
  by rewrite invoke_insert.
Qed.

Lemma facade_seeds_and_legal_chain_renders_witness :
  (o ← facade_part ELEMENT "a";
   o ← invoke o (append_all [(ATTR, "href$=.png"); (PSEUDO_CLASS, "focus")]);
   invoke o MyBuilder.stringify) ∅ =
  Some (Return "a[href$=.png]:focus",
        <[fresh (dom (∅ : gmap loc MyBuilder)) :=
            added_all [(ATTR, "href$=.png"); (PSEUDO_CLASS, "focus")]
              (added ELEMENT "a" empty_builder)]> ∅).
Proof.
  apply (facade_seeds_and_legal_chain_renders ELEMENT "a"
           [(ATTR, "href$=.png"); (PSEUDO_CLASS, "focus")] ∅).
  reflexivity.
Defined.

(** ** Parts of a repeatable kind in a row *)

Lemma repeatable_prefix_kind t c :
  repeatable_prefix t c → single_occurrence t = false.
Proof. by intros [[-> _]|[[-> _]|[-> _]]]. Qed.

Lemma count_char_rendered t c str :
  repeatable_prefix t c →
  count_char c (rendered t str) = 1 + count_char c str.
Proof.
  intros [[-> ->]|[[-> ->]|[-> ->]]]; unfold rendered;
    rewrite ?append_cons, ?append_nil_l; simpl; [done | | done].
  rewrite count_char_app. simpl. lia.
Qed.

Lemma count_char_rendered_all t c (texts : list string) :
  repeatable_prefix t c →
  count_char c (rendered_all (pair t <$> texts)) =
  length texts + sum_list (count_char c <$> texts).
Proof.
  intros Hp. induction texts as [|str texts IH]; [done |].
  rewrite !fmap_cons, rendered_all_cons, count_char_app.
  rewrite (count_char_rendered t c str Hp), IH. simpl. lia.
Qed.

Lemma sum_list_zero (l : list nat) :
  Forall (λ n, n = 0) l → sum_list l = 0.
Proof. induction 1 as [|n l -> _ IH]; simpl; [done | by rewrite IH]. Qed.

Lemma append_all_never_duplicate t (texts : list string) o b r b' :
  single_occurrence t = false →
  append_all (pair t <$> texts) o b = (r, b') →
  r ≠ Throw DuplicateFragmentError.
Proof.
  intros Ht. revert b. induction texts as [|str texts IH]; intros b Hrun.
  - rewrite fmap_nil, append_all_nil in Hrun. by simplify_eq.
  - rewrite fmap_cons, append_all_cons, append_part_run, Ht in Hrun.
    simpl in Hrun.
    destruct (later_free t (partsPresence b)); [by apply (IH _ Hrun) |].
    by simplify_eq.
Qed.

Lemma append_all_same_kind t (texts : list string) o b :
  single_occurrence t = false →
  later_free t (partsPresence b) = true →
  append_all (pair t <$> texts) o b = (Return o, added_all (pair t <$> texts) b).
Proof.
  intros Ht. revert b. induction texts as [|str texts IH]; intros b Hfree.
  - done.
  - rewrite fmap_cons, append_all_cons, append_part_run, Ht, Hfree. simpl.
    apply IH. by rewrite later_free_added.
Qed.

(** C3, as stated, fails: the one class part of [class("a.b")] is
    rendered with two dots. *)
Lemma prefix_count_exceeds_parts :
  fst <$> (o ← cssSelectorBuilder.class "a.b"; invoke o MyBuilder.stringify) ∅
    = Some (Return ".a.b") ∧
  count_char "." ".a.b" = 2 ∧
  count_char "." ".a.b" ≠ length ["a.b"].
Proof. split; [reflexivity |]. split; [reflexivity | discriminate]. Qed.

(** C3 (amended): for CLASS, ATTR and PSEUDO_CLASS and N >= 1 texts,
    appending N parts of the kind in a row never raises the duplicate
    error, on any builder.  On a builder that the facade seeded with
    the first of them, and on any builder that holds no part of a later
    kind, all N appends succeed and the text of [stringify] ends with
    the N parts in order, each behind its prefix ('.', '[', ':'); the
    prefix occurs in these parts N times plus the times it occurs in
    the texts supplied, hence exactly N times when no supplied text
    contains it. *)
Theorem repeatable_parts_in_a_row
    (t : TYPES_OF_PARTS) (c : ascii) (first : string) (others : list string) :
  repeatable_prefix t c →
  (∀ o b r b',
      append_all (pair t <$> first :: others) o b = (r, b') →
      r ≠ Throw DuplicateFragmentError) ∧
  (∀ h, (o ← facade_part t first;
         o ← invoke o (append_all (pair t <$> others));
         invoke o MyBuilder.stringify) h =
        Some (Return (rendered_all (pair t <$> first :: others)),
              <[fresh (dom h) :=
                  added_all (pair t <$> others) (added t first empty_builder)]> h)) ∧
  (∀ o b,
      later_free t (partsPresence b) = true →
      append_all (pair t <$> first :: others) o b =
        (Return o, added_all (pair t <$> first :: others) b) ∧
      MyBuilder.stringify o (added_all (pair t <$> first :: others) b) =
        (Return (line b +:+ rendered_all (pair t <$> first :: others)),
         added_all (pair t <$> first :: others) b)) ∧
  count_char c (rendered_all (pair t <$> first :: others)) =
    length (first :: others) + sum_list (count_char c <$> first :: others) ∧
  (Forall (λ str, count_char c str = 0) (first :: others) →
   count_char c (rendered_all (pair t <$> first :: others)) =
     length (first :: others)).
Proof.
  intros Hp. pose proof (repeatable_prefix_kind t c Hp) as Ht.
  split; [intros o b r b'; by apply append_all_never_duplicate |].
  split.
  { intros h.
    rewrite (facade_chain_stringify t first (pair t <$> others)
               (added_all (pair t <$> others) (added t first empty_builder))).
    - by rewrite line_added_all.
    - apply append_all_same_kind; [done |].
      rewrite later_free_added by done. apply later_free_empty_builder. }
  split.
  { intros o b Hfree. split; [by apply append_all_same_kind |].
    by rewrite stringify_run, line_added_all. }
  split; [by apply count_char_rendered_all |].
  intros Hnone. rewrite (count_char_rendered_all t c _ Hp).
  rewrite sum_list_zero; [lia |].
  by apply Forall_fmap.
Qed.

Lemma repeatable_parts_in_a_row_witness :
  count_char "." (rendered_all (pair CLASS <$> ["container"; "editable"])) = 2.
Proof.
  apply (repeatable_parts_in_a_row CLASS "." "container" ["editable"]).
  - by left.
  - by repeat constructor.
Defined.

(** ** [stringify] *)

Lemma invoke_stringify o b (h : gmap loc MyBuilder) :
  h !! o = Some b →
  invoke o MyBuilder.stringify h = Some (Return (line b), h).
Proof. intros Ho. by apply invoke_unchanged with b. Qed.

(** C6: on a builder in any state, [stringify] returns the current text
    and completes normally, and the object and the whole store are as
    before; so two calls in a row give the same text, and an append
    call, or any program, behaves after a [stringify] as it would have
    without it. *)
Theorem stringify_reads_only (o : loc) (b : MyBuilder) (h : gmap loc MyBuilder) :
  h !! o = Some b →
  MyBuilder.stringify o b = (Return (line b), b) ∧
  invoke o MyBuilder.stringify h = Some (Return (line b), h) ∧
  (x ← invoke o MyBuilder.stringify;
   y ← invoke o MyBuilder.stringify;
   mret (x, y)) h = Some (Return (line b, line b), h) ∧
  (∀ t str,
      (invoke o MyBuilder.stringify;; invoke o (append_part t str)) h =
      invoke o (append_part t str) h) ∧
  (∀ (A : Type) (p : Prog A),
      (invoke o MyBuilder.stringify;; p) h = p h).
Proof.
  intros Ho. pose proof (invoke_stringify o b h Ho) as Hs.
  split; [done |]. split; [done |]. split.
  { unfold mbind, Prog_bind. by rewrite Hs, Hs. }
  split.
  - intros t str. unfold mbind, Prog_bind. by rewrite Hs.
  - intros A p. unfold mbind, Prog_bind. by rewrite Hs.
Qed.

Lemma stringify_reads_only_witness :
  invoke 0 MyBuilder.stringify {[0 := div_builder]} =
  Some (Return "div", {[0 := div_builder]}).
Proof.
  apply (stringify_reads_only 0 div_builder {[0 := div_builder]}).
  reflexivity.
Defined.

(** ** [combine] *)

Lemma combine_run L R combinator bL bR (h : gmap loc MyBuilder) :
  h !! L = Some bL → h !! R = Some bR →
  cssSelectorBuilder.combine L combinator R h =
  Some (Return L, <[L := combined combinator bL bR]> h).
Proof.
  intros HL HR. unfold cssSelectorBuilder.combine, mbind, Prog_bind.
  rewrite (invoke_stringify R bR h HR).
  by apply invoke_run with bL.
Qed.

Lemma fresh_after_insert o b (h : gmap loc MyBuilder) :
  fresh (dom (<[o := b]> h)) ≠ o.
Proof.
  intros E. apply (is_fresh (dom (<[o := b]> h))).
  rewrite E. apply elem_of_dom. by rewrite lookup_insert_eq.
Qed.

Lemma div_plus_table_run (h : gmap loc MyBuilder) :
  fst <$> div_plus_table h = Some (Return "div#main + table#data").
Proof.
  unfold div_plus_table, cssSelectorBuilder.element.
  unfold mbind at 1, Prog_bind at 1. rewrite new_MyBuilder_run.
  erewrite invoke_insert_return; [| reflexivity].
  set (l := fresh (dom h)).
  set (bl := added ID "main" (added ELEMENT "div" empty_builder)).
  unfold mbind at 1, Prog_bind at 1. rewrite new_MyBuilder_run.
  erewrite invoke_insert_return; [| reflexivity].
  set (r := fresh (dom (<[l := bl]> h))).
  set (br := added ID "data" (added ELEMENT "table" empty_builder)).
  assert (r ≠ l) as Hne by apply fresh_after_insert.
  unfold mbind at 1, Prog_bind at 1.
  rewrite (combine_run l r "+" bl br).
  - rewrite (invoke_stringify l (combined "+" bl br)); [reflexivity |].
    by rewrite lookup_insert_eq.
  - rewrite lookup_insert_ne by done. by rewrite lookup_insert_eq.
  - by rewrite lookup_insert_eq.
Qed.

(** C5: for builders L and R, distinct or not, and a combinator c,
    [combine(L, c, R)] returns L, whose text is now its former text, a
    space, c, a space, and the text [R.stringify()] returned; with a
    space for c the joint is three spaces.  In particular
    [combine(element('div').id('main'), '+', element('table').id('data'))
    .stringify()] is [div#main + table#data]. *)
Theorem combine_appends_right_text
    (L R : loc) (c : string) (bL bR : MyBuilder) (h : gmap loc MyBuilder) :
  h !! L = Some bL → h !! R = Some bR →
  invoke R MyBuilder.stringify h = Some (Return (line bR), h) ∧
  cssSelectorBuilder.combine L c R h =
    Some (Return L, <[L := combined c bL bR]> h) ∧
  (s ← cssSelectorBuilder.combine L c R; invoke s MyBuilder.stringify) h =
    Some (Return (line bL +:+ " " +:+ c +:+ " " +:+ line bR),
          <[L := combined c bL bR]> h) ∧
  (c = " " → line (combined c bL bR) = line bL +:+ "   " +:+ line bR) ∧
  fst <$> div_plus_table h = Some (Return "div#main + table#data").
Proof.
  intros HL HR.
  split; [by apply invoke_stringify |].
  split; [by apply combine_run |].
  split.
  { unfold mbind at 1, Prog_bind at 1.
    rewrite (combine_run L R c bL bR h HL HR).
    apply (invoke_stringify L (combined c bL bR)).
    by rewrite lookup_insert_eq. }
  split; [by intros -> | apply div_plus_table_run].
Qed.

Lemma combine_appends_right_text_witness :
  cssSelectorBuilder.combine 0 "+" 0 {[0 := div_builder]} =
  Some (Return 0, <[0 := combined "+" div_builder div_builder]> {[0 := div_builder]}).
Proof.
  apply (combine_appends_right_text 0 0 "+" div_builder div_builder
           {[0 := div_builder]}); reflexivity.
Defined.

(** C7, as stated, fails: when the same builder is passed as both
    operands, the right operand is the object that [combineTail]
    writes, and its text is not what it was. *)
Lemma combine_rewrites_aliased_right_operand :
  cssSelectorBuilder.element "div" ∅ = Some (Return 0, {[0 := div_builder]}) ∧
  ({[0 := div_builder]} : gmap loc MyBuilder) !! 0 = Some div_builder ∧
  line div_builder = "div" ∧
  ∃ h', cssSelectorBuilder.combine 0 "+" 0 {[0 := div_builder]} = Some (Return 0, h') ∧
        h' !! 0 = Some {| line := "div + div"; partsPresence := [1; 0; 0; 0; 0; 0] |} ∧
        h' !! 0 ≠ Some div_builder.
Proof.
  split; [reflexivity |]. split; [reflexivity |]. split; [reflexivity |].
  eexists. split; [reflexivity |]. split; [reflexivity | discriminate].
Qed.

(** C7 (amended): [combine(L, c, R)] neither reads nor writes a
    counter: the new text of L is made of the two texts and c alone,
    the counters of L and of R are what they were, and an append call
    on L is accepted or rejected after the combine exactly as before
    it.  Every object other than L is unchanged, so R is unchanged
    altogether when it is an object other than L. *)
Theorem combine_keeps_counters
    (L R : loc) (c : string) (bL bR : MyBuilder) (h : gmap loc MyBuilder) :
  h !! L = Some bL → h !! R = Some bR →
  ∃ h' bL' bR',
    cssSelectorBuilder.combine L c R h = Some (Return L, h') ∧
    h' !! L = Some bL' ∧
    h' !! R = Some bR' ∧
    line bL' = line bL +:+ " " +:+ c +:+ " " +:+ line bR ∧
    partsPresence bL' = partsPresence bL ∧
    partsPresence bR' = partsPresence bR ∧
    (∀ t str,
        fst (append_part t str L bL') = fst (append_part t str L bL) ∧
        partsPresence (snd (append_part t str L bL')) =
          partsPresence (snd (append_part t str L bL))) ∧
    (∀ o, o ≠ L → h' !! o = h !! o) ∧
    (R ≠ L → bR' = bR).
Proof.
  intros HL HR.
  exists (<[L := combined c bL bR]> h), (combined c bL bR),
    (if decide (R = L) then combined c bL bR else bR).
  split; [by apply combine_run |].
  split; [by rewrite lookup_insert_eq |].
  split.
  { destruct (decide (R = L)) as [->|Hne].
    - by rewrite lookup_insert_eq.
    - by rewrite lookup_insert_ne. }
  split; [done |]. split; [done |]. split.
  { destruct (decide (R = L)) as [->|Hne]; [| done]. simpl. congruence. }
  split.
  { intros t str. rewrite !append_part_run.
    change (count_of t (combined c bL bR)) with (count_of t bL).
    change (partsPresence (combined c bL bR)) with (partsPresence bL).
    destruct (single_occurrence t && negb (count_of t bL =? 0)); [done |].
    by destruct (later_free t (partsPresence bL)). }
  split.
  - intros o Hne. by rewrite lookup_insert_ne.
  - intros Hne. by destruct (decide (R = L)).
Qed.

Lemma combine_keeps_counters_witness :
  ∃ h' bL' bR',
    cssSelectorBuilder.combine 0 ">" 1
      {[0 := div_builder; 1 := added CLASS "x" empty_builder]} = Some (Return 0, h') ∧
    h' !! 0 = Some bL' ∧
    h' !! 1 = Some bR' ∧
    line bL' = "div > .x" ∧
    partsPresence bL' = [1; 0; 0; 0; 0; 0] ∧
    bR' = added CLASS "x" empty_builder.
Proof.
  destruct (combine_keeps_counters 0 1 ">" div_builder
              (added CLASS "x" empty_builder)
              {[0 := div_builder; 1 := added CLASS "x" empty_builder]})
    as (h' & bL' & bR' & Hrun & HL & HR & Hline & HcL & _ & _ & _ & Heq).
  - reflexivity.
  - reflexivity.
  - exists h', bL', bR'. repeat split; try done.
    apply Heq. lia.
Defined.


(** * Further properties of the builder *)

(** ** What a call leaves behind *)

Lemma append_part_cases t str o b r b' :
  append_part t str o b = (r, b') →
  (b' = b ∧ r = Throw DuplicateFragmentError ∧
   single_occurrence t = true ∧ 0 < count_of t b) ∨
  (b' = b ∧ r = Throw OutOfOrderError ∧
   (single_occurrence t = true → count_of t b = 0) ∧
   later_free t (partsPresence b) = false) ∨
  (b' = added t str b ∧ r = Return o ∧
   (single_occurrence t = true → count_of t b = 0) ∧
   later_free t (partsPresence b) = true).
Proof.
  rewrite append_part_run. intros Hrun.
  destruct (single_occurrence t && negb (count_of t b =? 0)) eqn:Hguard.
  - left. simplify_eq. apply andb_true_iff in Hguard as [Hs Hn].
    apply negb_true_iff, Nat.eqb_neq in Hn. repeat split; [done | lia].
  - pose proof (proj1 (guard_open_iff t b) Hguard) as Hopen.
    destruct (later_free t (partsPresence b)) eqn:Hfree; simplify_eq.
    + by right; right.
    + by right; left.
Qed.

Lemma method_step_cases b b' :
  method_step b b' →
  b' = b ∨
  (∃ text, b' = {| line := line b +:+ text; partsPresence := partsPresence b |}) ∨
  (∃ t str, b' = added t str b ∧
            (single_occurrence t = true → count_of t b = 0) ∧
            later_free t (partsPresence b) = true).
Proof.
  intros [t str o r b0 b0' Ha | c s o r b0 b0' Hc | o r b0 b0' Hs].
  - destruct (append_part_cases _ _ _ _ _ _ Ha)
      as [(-> & _)|[(-> & _)|(-> & _ & Hopen & Hfree)]]; eauto 10.
  - rewrite combineTail_run in Hc. simplify_eq. right; left. by eexists.
  - rewrite stringify_run in Hs. simplify_eq. by left.
Qed.

Lemma count_of_added_ge t u str b :
  count_of u b ≤ count_of u (added t str b).
Proof.
  destruct (decide (t = u)) as [->|Hne]; [| by rewrite count_of_added_ne].
  unfold count_of, added; simpl.
  destruct (decide (part_index u < length (partsPresence b))) as [Hlt|Hge].
  - rewrite list_lookup_insert_eq by done. simpl. unfold count_of. lia.
  - by rewrite list_insert_ge by lia.
Qed.

Lemma reachable_holds b :
  reachable b →
  wf b ∧ (∀ t, single_occurrence t = true → count_of t b ≤ 1) ∧
  ∃ t, 0 < count_of t b.
Proof.
  induction 1 as [initStr t o r b Hc
                 | t str o r b b' _ IH Ha
                 | c s o r b b' _ IH Hc
                 | o r b b' _ IH Hs].
  - rewrite constructor_run in Hc. simplify_eq.
    split; [apply wf_added, wf_empty_builder |]. split.
    + intros u _. rewrite count_of_fresh. case_decide; lia.
    + exists t. rewrite count_of_fresh. case_decide; [lia | done].
  - destruct IH as (Hwf & Hone & [v Hv]).
    destruct (append_part_cases _ _ _ _ _ _ Ha)
      as [(-> & _)|[(-> & _)|(-> & _ & Hopen & _)]]; [by eauto.. |].
    split; [by apply wf_added |]. split.
    + intros u Hu. destruct (decide (t = u)) as [->|Hne].
      * rewrite count_of_added_same by done. rewrite Hopen by done. lia.
      * rewrite count_of_added_ne by done. by apply Hone.
    + exists v. pose proof (count_of_added_ge t v str b). lia.
  - rewrite combineTail_run in Hc. by simplify_eq.
  - rewrite stringify_run in Hs. by simplify_eq.
Qed.

(** X1: every builder that the constructor and the public methods can
    produce has six counters, holds at most one ELEMENT, one ID and one
    PSEUDO_ELEMENT part, and holds at least one part. *)
Theorem reachable_counters (b : MyBuilder) :
  reachable b →
  length (partsPresence b) = 6 ∧
  count_of ELEMENT b ≤ 1 ∧
  count_of ID b ≤ 1 ∧
  count_of PSEUDO_ELEMENT b ≤ 1 ∧
  ∃ t, 0 < count_of t b.
Proof.
  intros (Hwf & Hone & Hsome)%reachable_holds.
  split; [done |]. repeat split; [by apply Hone.. | done].
Qed.

Lemma reachable_counters_witness :
  count_of ELEMENT div_builder ≤ 1 ∧ ∃ t, 0 < count_of t div_builder.
Proof.
  destruct (reachable_counters div_builder) as (_ & He & _ & _ & Hs).
  - apply (reachable_new "div" ELEMENT 0 (Return tt)). reflexivity.
  - by split.
Defined.

(** ** Calls only add *)

Lemma method_step_grows b b' :
  method_step b b' →
  (∃ text, line b' = line b +:+ text) ∧
  length (partsPresence b') = length (partsPresence b) ∧
  ∀ t, count_of t b ≤ count_of t b'.
Proof.
  intros Hstep.
  destruct (method_step_cases b b' Hstep) as [->|[[text ->]|(t & str & -> & _)]].
  - split; [exists ""; by rewrite append_empty_r |]. by split.
  - split; [by exists text |]. by split.
  - split; [by exists (rendered t str) |]. split.
    + unfold added; simpl. by rewrite length_insert.
    + intros u. apply count_of_added_ge.
Qed.

(** X2: no sequence of calls of the public methods takes text away or
    lowers a counter: the text the object had stays the beginning of
    its text, the number of counters stays, and every counter is at
    least what it was. *)
Theorem calls_only_add (b b' : MyBuilder) :
  rtc method_step b b' →
  (∃ text, line b' = line b +:+ text) ∧
  length (partsPresence b') = length (partsPresence b) ∧
  ∀ t, count_of t b ≤ count_of t b'.
Proof.
  induction 1 as [b | b b1 b2 Hstep _ (Htext & Hlen & Hcount)].
  - split; [exists ""; by rewrite append_empty_r |]. by split.
  - destruct (method_step_grows b b1 Hstep) as ([text1 H1] & Hlen1 & Hcount1).
    destruct Htext as [text2 H2]. split.
    + exists (text1 +:+ text2). by rewrite H2, H1, append_assoc.
    + split; [congruence |]. intros t. specialize (Hcount t).
      specialize (Hcount1 t). lia.
Qed.

Lemma calls_only_add_witness :
  ∃ text, line (added CLASS "x" div_builder) = line div_builder +:+ text.
Proof.
  apply (calls_only_add div_builder (added CLASS "x" div_builder)).
  apply rtc_once.
  apply (step_append CLASS "x" 0 (Return 0)). reflexivity.
Defined.

(** ** A rejected part stays rejected *)

Lemma later_taken_added t u str b :
  (single_occurrence u = true → count_of u b = 0) →
  later_free t (partsPresence b) = false →
  later_free t (partsPresence (added u str b)) = false.
Proof.
  intros _ (i & n & Hlt & Hi & Hn)%later_free_false.
  apply later_free_false. unfold added; simpl.
  destruct (decide (part_index u = i)) as [Hu|Hu].
  - exists i, (count_of u b + 1). split; [done |]. split; [| lia].
    rewrite Hu. apply list_lookup_insert_eq. by apply lookup_lt_Some with n.
  - exists i, n. by rewrite list_lookup_insert_ne.
Qed.

Lemma rejection_kept_by_step t b b' :
  method_step b b' →
  (single_occurrence t = true ∧ 0 < count_of t b →
   single_occurrence t = true ∧ 0 < count_of t b') ∧
  ((single_occurrence t = true → count_of t b = 0) ∧
   later_free t (partsPresence b) = false →
   (single_occurrence t = true → count_of t b' = 0) ∧
   later_free t (partsPresence b') = false).
Proof.
  intros Hstep. split.
  - intros [Hs Hn]. split; [done |].
    destruct (method_step_grows b b' Hstep) as (_ & _ & Hcount).
    specialize (Hcount t). lia.
  - intros [Hopen Htaken].
    destruct (method_step_cases b b' Hstep)
      as [->|[[text ->]|(u & str & -> & Hu & Hfree)]]; [done.. |].
    split; [| by apply later_taken_added].
    intros Hs. rewrite count_of_added_ne; [by apply Hopen |].
    intros ->. congruence.
Qed.

(** X3: an append that the builder rejects stays rejected, with the
    same error, after any further calls of the public methods on the
    object: there is no call that makes a rejected part acceptable
    again. *)
Theorem rejection_is_permanent
    (t : TYPES_OF_PARTS) (str str' : string) (o o' : loc)
    (b b1 b' : MyBuilder) (e : exn) :
  append_part t str o b = (Throw e, b1) →
  rtc method_step b b' →
  append_part t str' o' b' = (Throw e, b').
Proof.
  intros Hrej Hcalls.
  assert ((e = DuplicateFragmentError ∧
           single_occurrence t = true ∧ 0 < count_of t b) ∨
          (e = OutOfOrderError ∧
           (single_occurrence t = true → count_of t b = 0) ∧
           later_free t (partsPresence b) = false)) as Hwhy.
  { destruct (append_part_cases _ _ _ _ _ _ Hrej)
      as [(_ & ? & ? & ?)|[(_ & ? & ? & ?)|(_ & ? & _)]]; simplify_eq; auto. }
  clear Hrej. induction Hcalls as [b | b b2 b' Hstep _ IH].
  - rewrite append_part_run.
    destruct Hwhy as [(-> & Hs & Hn)|(-> & Hopen & Htaken)].
    + by rewrite guard_shut.
    + by rewrite guard_open, Htaken.
  - apply IH.
    destruct (rejection_kept_by_step t b b2 Hstep) as [Hdup Hord].
    destruct Hwhy as [(-> & Hs & Hn)|(-> & Hopen & Htaken)].
    + left. split; [done |]. by apply Hdup.
    + right. split; [done |]. by apply Hord.
Qed.

Lemma rejection_is_permanent_witness :
  append_part ID "late" 1 (added PSEUDO_CLASS "hover" (added CLASS "x" div_builder)) =
  (Throw OutOfOrderError, added PSEUDO_CLASS "hover" (added CLASS "x" div_builder)).
Proof.
  apply (rejection_is_permanent ID "main" "late" 0 1
           (added CLASS "x" div_builder) (added CLASS "x" div_builder)).
  - reflexivity.
  - apply rtc_once.
    apply (step_append PSEUDO_CLASS "hover" 0 (Return 0)). reflexivity.
Defined.

(** ** A chain that throws *)

(** X4: when a chain of appends throws, the object is left with exactly
    the parts in front of the call that threw: the chain splits into
    the calls that went through, whose parts are in the text and in the
    counters, the call that threw, which changed nothing, and the calls
    behind it, which were not made. *)
Theorem failed_chain_keeps_earlier_parts
    (parts : list (TYPES_OF_PARTS * string)) (o : loc) (b b' : MyBuilder) (e : exn) :
  append_all parts o b = (Throw e, b') →
  ∃ before t str behind,
    parts = (before ++ (t, str) :: behind)%list ∧
    append_all before o b = (Return o, b') ∧
    b' = added_all before b ∧
    line b' = line b +:+ rendered_all before ∧
    append_part t str o b' = (Throw e, b') ∧
    (e = DuplicateFragmentError ∨ e = OutOfOrderError).
Proof.
  revert b. induction parts as [|[t str] parts IH]; intros b Hrun.
  - rewrite append_all_nil in Hrun. by simplify_eq.
  - rewrite append_all_cons in Hrun.
    destruct (append_part t str o b) as [r b1] eqn:Hpart.
    destruct (append_part_cases _ _ _ _ _ _ Hpart)
      as [(-> & -> & _)|[(-> & -> & _)|(-> & -> & _)]].
    + simplify_eq. exists [], t, str, parts.
      rewrite append_empty_r. repeat split; auto.
    + simplify_eq. exists [], t, str, parts.
      rewrite append_empty_r. repeat split; auto.
    + destruct (IH _ Hrun)
        as (before & u & s & behind & -> & Hbefore & Hb' & Hline & Hthrow & He).
      exists ((t, str) :: before), u, s, behind.
      split; [done |]. split; [by rewrite append_all_cons, Hpart |].
      split; [done |]. split; [| by split].
      rewrite Hline, line_added, rendered_all_cons. apply append_assoc.
Qed.

Lemma failed_chain_keeps_earlier_parts_witness :
  ∃ before t str behind,
    [(CLASS, "x"); (ID, "main"); (ATTR, "href")] = (before ++ (t, str) :: behind)%list ∧
    append_all before 0 div_builder = (Return 0, added CLASS "x" div_builder) ∧
    added CLASS "x" div_builder = added_all before div_builder.
Proof.
  destruct (failed_chain_keeps_earlier_parts
              [(CLASS, "x"); (ID, "main"); (ATTR, "href")] 0
              div_builder (added CLASS "x" div_builder) OutOfOrderError)
    as (before & t & str & behind & Hsplit & Hrun & Hb & _).
  - reflexivity.
  - by exists before, t, str, behind.
Defined.

(** ** The counters count the parts *)

Lemma append_all_success parts o b v b' :
  append_all parts o b = (Return v, b') →
  v = o ∧ b' = added_all parts b.
Proof.
  revert b. induction parts as [|[t str] parts IH]; intros b Hrun.
  - rewrite append_all_nil in Hrun. by simplify_eq.
  - rewrite append_all_cons in Hrun.
    destruct (append_part t str o b) as [r b1] eqn:Hpart.
    destruct (append_part_cases _ _ _ _ _ _ Hpart)
      as [(-> & -> & _)|[(-> & -> & _)|(-> & -> & _)]]; [done.. |].
    by apply IH.
Qed.

Lemma sum_list_insert_succ (l : list nat) i n :
  l !! i = Some n → sum_list (<[i := n + 1]> l) = sum_list l + 1.
Proof.
  revert i. induction l as [|x l IH]; intros [|i] Hi; simplify_eq/=.
  - lia.
  - rewrite (IH i Hi). lia.
Qed.

Lemma wf_added_all parts b : wf b → wf (added_all parts b).
Proof.
  revert b. induction parts as [|[t str] parts IH]; intros b Hwf; [done |].
  apply IH, wf_added, Hwf.
Qed.

Lemma count_of_added_all u parts b :
  wf b →
  count_of u (added_all parts b) =
  count_of u b + length (filter (λ p, p.1 = u) parts).
Proof.
  revert b. induction parts as [|[t str] parts IH]; intros b Hwf.
  - simpl. lia.
  - change (added_all ((t, str) :: parts) b)
      with (added_all parts (added t str b)).
    rewrite IH by by apply wf_added.
    rewrite filter_cons. simpl. destruct (decide (t = u)) as [->|Hne].
    + rewrite count_of_added_same by done. simpl. lia.
    + by rewrite count_of_added_ne.
Qed.

Lemma sum_added_all parts b :
  wf b →
  sum_list (partsPresence (added_all parts b)) =
  sum_list (partsPresence b) + length parts.
Proof.
  revert b. induction parts as [|[t str] parts IH]; intros b Hwf.
  - simpl. lia.
  - change (added_all ((t, str) :: parts) b)
      with (added_all parts (added t str b)).
    rewrite IH by by apply wf_added.
    unfold added at 1; simpl.
    rewrite sum_list_insert_succ by by apply wf_lookup. lia.
Qed.

(** X5: after a chain of appends that went through, every counter has
    grown by the number of parts of its kind in the chain, and the
    counters together by the length of the chain; on a builder fresh
    from the facade they are the numbers of parts held. *)
Theorem counters_count_parts
    (parts : list (TYPES_OF_PARTS * string)) (o : loc) (b b' : MyBuilder) :
  wf b →
  append_all parts o b = (Return o, b') →
  (∀ u, count_of u b' = count_of u b + length (filter (λ p, p.1 = u) parts)) ∧
  sum_list (partsPresence b') = sum_list (partsPresence b) + length parts ∧
  (∀ t value,
      b = added t value empty_builder →
      (∀ u, count_of u b' = length (filter (λ p, p.1 = u) ((t, value) :: parts))) ∧
      sum_list (partsPresence b') = length ((t, value) :: parts)).
Proof.
  intros Hwf Hrun. apply append_all_success in Hrun as [_ ->].
  split; [intros u; by apply count_of_added_all |].
  split; [by apply sum_added_all |].
  intros t value ->. split.
  - intros u. rewrite count_of_added_all by done.
    rewrite count_of_fresh, filter_cons. simpl.
    destruct (decide (t = u)) as [->|Hne].
    + by rewrite decide_True.
    + by rewrite decide_False by done.
  - rewrite sum_added_all by done.
    replace (sum_list (partsPresence (added t value empty_builder))) with 1
      by by destruct t.
    simpl. lia.
Qed.

Lemma counters_count_parts_witness :
  count_of CLASS (added CLASS "editable" (added CLASS "container" (added ID "main" empty_builder))) =
  length (filter (λ p, p.1 = CLASS)
            [(ID, "main"); (CLASS, "container"); (CLASS, "editable")]).
Proof.
  destruct (counters_count_parts
              [(CLASS, "container"); (CLASS, "editable")] 0
              (added ID "main" empty_builder)
              (added CLASS "editable" (added CLASS "container" (added ID "main" empty_builder))))
    as (_ & _ & Hfresh).
  - reflexivity.
  - reflexivity.
  - destruct (Hfresh ID "main" eq_refl) as [Hcount _]. apply Hcount.
Defined.

(** ** The chains that go through *)

Lemma may_follow_trans p q r :
  may_follow p q → may_follow q r → may_follow p r.
Proof.
  intros [Hpq Hsame] [Hqr _]. split; [lia |].
  intros Hpr. apply Hsame, part_index_inj. rewrite Hpr in Hpq |- *. lia.
Qed.

Lemma in_order_after_sorted t value rest :
  in_order_after t rest = true ↔ StronglySorted may_follow ((t, value) :: rest).
Proof.
  revert t value. induction rest as [|[u s] rest IH]; intros t value.
  - split; [intros _; by repeat constructor | done].
  - simpl in_order_after. rewrite andb_true_iff, (IH u s). split.
    + intros [Hstep Hsorted]. constructor; [done |].
      assert (may_follow (t, value) (u, s)) as Htu.
      { apply orb_true_iff in Hstep as [Hlt%Nat.ltb_lt|Heq].
        - split; simpl; [lia |]. intros ->. exfalso. lia.
        - apply andb_true_iff in Heq as [Heq%Nat.eqb_eq Hrep%negb_true_iff].
          apply part_index_inj in Heq as ->. by split. }
      constructor; [done |].
      apply StronglySorted_inv in Hsorted as [_ Hall].
      eapply Forall_impl; [exact Hall |].
      intros q Hq. by apply may_follow_trans with (u, s).
    + intros [Hsorted Hall]%StronglySorted_inv. split; [| done].
      apply Forall_cons in Hall as [[Hle Hsame] _]. simpl in Hle, Hsame.
      destruct (decide (part_index t = part_index u)) as [Heq|Hne].
      * apply orb_true_iff. right.
        pose proof (part_index_inj _ _ Heq) as ->.
        by rewrite Nat.eqb_refl, Hsame.
      * apply orb_true_iff. left. apply Nat.ltb_lt. lia.
Qed.

(** X6: behind a facade call, a chain of appends goes through exactly
    when the parts are in the order of the kinds throughout, every part
    of a kind not earlier than any part in front of it, and no second
    ELEMENT, ID or PSEUDO_ELEMENT; it then leaves all parts in the
    object, and otherwise it ends in a throw. *)
Theorem chain_accepted_iff_sorted
    (t : TYPES_OF_PARTS) (value : string)
    (rest : list (TYPES_OF_PARTS * string)) (h : gmap loc MyBuilder) :
  ∃ r b',
    (o ← facade_part t value; invoke o (append_all rest)) h =
      Some (r, <[fresh (dom h) := b']> h) ∧
    (r = Return (fresh (dom h)) ↔
     StronglySorted may_follow ((t, value) :: rest)) ∧
    ((∃ e, r = Throw e) ↔
     ¬ StronglySorted may_follow ((t, value) :: rest)) ∧
    (r = Return (fresh (dom h)) →
     b' = added_all rest (added t value empty_builder)).
Proof.
  rewrite facade_then_invoke. simpl.
  pose proof (append_all_after t rest (fresh (dom h))
                (added t value empty_builder) (holds_last_fresh t value))
    as Hchain.
  pose proof (in_order_after_sorted t value rest) as Hsorted.
  destruct (in_order_after t rest).
  - rewrite Hchain. eexists _, _. split; [done |].
    split; [split; [intros _; by apply Hsorted | done] |].
    split; [| done].
    split; [by intros [e ?] | intros Hn; destruct Hn; by apply Hsorted].
  - destruct Hchain as (e & b' & ->). exists (Throw e), b'.
    split; [done |].
    split; [split; [done | by intros H%Hsorted] |].
    split; [| done].
    split; [by intros _ H%Hsorted | by exists e].
Qed.

(** ** [combine] and what follows it *)

(** X7: nesting [combine] to the left or to the right gives the same
    text: for a left operand [a] that is neither [b] nor [d],
    [combine(combine(a, c1, b), c2, d)] and
    [combine(a, c1, combine(b, c2, d))] both return [a] with the text
    of [a], [c1], the text of [b], [c2] and the text of [d], single
    spaces around the combinators; they differ in [b], which only the
    second rewrites.  The nested example of the source comment gives
    the documented text. *)
Theorem combine_text_associative
    (a b d : loc) (c1 c2 : string) (ba bb bd : MyBuilder) (h : gmap loc MyBuilder) :
  h !! a = Some ba → h !! b = Some bb → h !! d = Some bd →
  a ≠ b → a ≠ d →
  ∃ text hl hr,
    text = line ba +:+ " " +:+ c1 +:+ " " +:+ line bb +:+ " " +:+ c2 +:+ " " +:+ line bd ∧
    (x ← cssSelectorBuilder.combine a c1 b;
     y ← cssSelectorBuilder.combine x c2 d;
     invoke y MyBuilder.stringify) h = Some (Return text, hl) ∧
    (y ← cssSelectorBuilder.combine b c2 d;
     x ← cssSelectorBuilder.combine a c1 y;
     invoke x MyBuilder.stringify) h = Some (Return text, hr) ∧
    hl !! a = Some {| line := text; partsPresence := partsPresence ba |} ∧
    hr !! a = Some {| line := text; partsPresence := partsPresence ba |} ∧
    hl !! b = Some bb ∧
    hr !! b = Some (combined c2 bb bd) ∧
    fst <$> nested_combine ∅ =
      Some (Return "div#main.container.draggable + table#data ~ tr:nth-of-type(even)   td:nth-of-type(even)").
Proof.
  intros Ha Hb Hd Hab Had.
  assert (combined c2 (combined c1 ba bb) bd =
          {| line := line ba +:+ " " +:+ c1 +:+ " " +:+ line bb +:+ " "
                     +:+ c2 +:+ " " +:+ line bd;
             partsPresence := partsPresence ba |}) as Hleft.
  { unfold combined; simpl. f_equal. by rewrite !append_assoc. }
  eexists _, (<[a := combined c2 (combined c1 ba bb) bd]> h),
    (<[a := combined c1 ba (combined c2 bb bd)]> (<[b := combined c2 bb bd]> h)).
  split; [reflexivity |]. split.
  { unfold mbind at 1, Prog_bind at 1.
    rewrite (combine_run a b c1 ba bb h Ha Hb).
    unfold mbind at 1, Prog_bind at 1.
    rewrite (combine_run a d c2 (combined c1 ba bb) bd).
    - rewrite insert_insert_eq.
      rewrite (invoke_stringify a (combined c2 (combined c1 ba bb) bd))
        by by rewrite lookup_insert_eq.
      by rewrite Hleft.
    - by rewrite lookup_insert_eq.
    - by rewrite lookup_insert_ne. }
  split.
  { unfold mbind at 1, Prog_bind at 1.
    rewrite (combine_run b d c2 bb bd h Hb Hd).
    unfold mbind at 1, Prog_bind at 1.
    rewrite (combine_run a b c1 ba (combined c2 bb bd)).
    - by rewrite (invoke_stringify a (combined c1 ba (combined c2 bb bd)))
        by by rewrite lookup_insert_eq.
    - by rewrite lookup_insert_ne.
    - by rewrite lookup_insert_eq. }
  split; [by rewrite lookup_insert_eq, Hleft |].
  split; [by rewrite lookup_insert_eq |].
  split; [by rewrite lookup_insert_ne |].
  split; [| reflexivity].
  rewrite lookup_insert_ne by done. by rewrite lookup_insert_eq.
Qed.

Lemma combine_text_associative_witness :
  ∃ text hl hr,
    text = "div > .x ~ .y" ∧
    (x ← cssSelectorBuilder.combine 0 ">" 1;
     y ← cssSelectorBuilder.combine x "~" 2;
     invoke y MyBuilder.stringify)
      {[0 := div_builder; 1 := added CLASS "x" empty_builder;
        2 := added CLASS "y" empty_builder]} = Some (Return text, hl) ∧
    (y ← cssSelectorBuilder.combine 1 "~" 2;
     x ← cssSelectorBuilder.combine 0 ">" y;
     invoke x MyBuilder.stringify)
      {[0 := div_builder; 1 := added CLASS "x" empty_builder;
        2 := added CLASS "y" empty_builder]} = Some (Return text, hr).
Proof.
  destruct (combine_text_associative 0 1 2 ">" "~" div_builder
              (added CLASS "x" empty_builder) (added CLASS "y" empty_builder)
              {[0 := div_builder; 1 := added CLASS "x" empty_builder;
                2 := added CLASS "y" empty_builder]})
    as (text & hl & hr & Htext & Hl & Hr & _).
  - reflexivity.
  - reflexivity.
  - reflexivity.
  - lia.
  - lia.
  - by exists text, hl, hr.
Defined.

(** X8: an append on the left operand behind a [combine] is judged by
    the counters of the left operand alone and lands behind the text of
    the right operand, whatever kinds of parts the right operand holds. *)
Theorem append_after_combine
    (L R : loc) (c : string) (t : TYPES_OF_PARTS) (str : string)
    (bL bR : MyBuilder) (h : gmap loc MyBuilder) :
  h !! L = Some bL → h !! R = Some bR →
  (single_occurrence t = true → count_of t bL = 0) →
  later_free t (partsPresence bL) = true →
  (x ← cssSelectorBuilder.combine L c R;
   x ← invoke x (append_part t str);
   invoke x MyBuilder.stringify) h =
  Some (Return (line bL +:+ " " +:+ c +:+ " " +:+ line bR +:+ rendered t str),
        <[L := added t str (combined c bL bR)]> h).
Proof.
  intros HL HR Hopen Hfree.
  unfold mbind at 1, Prog_bind at 1.
  rewrite (combine_run L R c bL bR h HL HR).
  rewrite (invoke_insert_return (append_part t str) _ L (combined c bL bR)
             L (added t str (combined c bL bR))).
  - rewrite invoke_insert, stringify_run, line_added.
    unfold combined; simpl. by rewrite !append_assoc.
  - rewrite append_part_run.
    change (count_of t (combined c bL bR)) with (count_of t bL).
    change (partsPresence (combined c bL bR)) with (partsPresence bL).
    by rewrite guard_open, Hfree.
Qed.

Lemma append_after_combine_witness :
  (x ← cssSelectorBuilder.combine 0 "+" 1;
   x ← invoke x (append_part ID "main");
   invoke x MyBuilder.stringify)
    {[0 := div_builder; 1 := added PSEUDO_ELEMENT "after" empty_builder]} =
  Some (Return ("div" +:+ " " +:+ "+" +:+ " " +:+ "::after" +:+ rendered ID "main"),
        <[0 := added ID "main"
                 (combined "+" div_builder (added PSEUDO_ELEMENT "after" empty_builder))]>
          {[0 := div_builder; 1 := added PSEUDO_ELEMENT "after" empty_builder]}).
Proof.
  apply (append_after_combine 0 1 "+" ID "main" div_builder
           (added PSEUDO_ELEMENT "after" empty_builder)
           {[0 := div_builder; 1 := added PSEUDO_ELEMENT "after" empty_builder]}).
  - reflexivity.
  - reflexivity.
  - reflexivity.
  - reflexivity.
Defined.


(** ** The first and the last kind *)

(** X9: on a builder that the constructor and the public methods can
    produce, the method [element] never goes through: the builder holds
    a part already, and [element] throws the duplicate error when that
    is an element and the order error otherwise.  An element gets into
    a selector through the facade only. *)
Theorem element_method_always_throws (str : string) (o : loc) (b : MyBuilder) :
  reachable b →
  (0 < count_of ELEMENT b ∧
   MyBuilder.element str o b = (Throw DuplicateFragmentError, b)) ∨
  (count_of ELEMENT b = 0 ∧
   MyBuilder.element str o b = (Throw OutOfOrderError, b)).
Proof.
  intros (Hwf & _ & [t Ht])%reachable_holds.
  change (MyBuilder.element str o b) with (append_part ELEMENT str o b).
  rewrite append_part_run.
  destruct (count_of ELEMENT b) as [|n] eqn:He; [right | left; by split; [lia |]].
  split; [done |]. simpl.
  replace (later_free ELEMENT (partsPresence b)) with false; [done |].
  symmetry. apply later_taken_counts; [done |].
  exists t. split; [| done].
  destruct t; simpl; lia.
Qed.

Lemma element_method_always_throws_witness :
  (0 < count_of ELEMENT (added CLASS "x" empty_builder) ∧
   MyBuilder.element "div" 0 (added CLASS "x" empty_builder) =
     (Throw DuplicateFragmentError, added CLASS "x" empty_builder)) ∨
  (count_of ELEMENT (added CLASS "x" empty_builder) = 0 ∧
   MyBuilder.element "div" 0 (added CLASS "x" empty_builder) =
     (Throw OutOfOrderError, added CLASS "x" empty_builder)).
Proof.
  apply (element_method_always_throws "div" 0 (added CLASS "x" empty_builder)).
  apply (reachable_new "x" CLASS 0 (Return tt)). reflexivity.
Defined.

(** X10: with six counters, a pseudo-element is never out of order:
    [pseudoElement] goes through exactly when the builder holds no
    pseudo-element, and throws the duplicate error otherwise.  Once a
    pseudo-element is held the builder takes no further part: every
    append throws, the order error unless its own guard throws first. *)
Theorem pseudo_element_closes_builder (str : string) (o : loc) (b : MyBuilder) :
  wf b →
  MyBuilder.isCorrectOrderForNewPart PSEUDO_ELEMENT o b = (Return true, b) ∧
  (count_of PSEUDO_ELEMENT b = 0 →
   MyBuilder.pseudoElement str o b = (Return o, added PSEUDO_ELEMENT str b)) ∧
  (0 < count_of PSEUDO_ELEMENT b →
   MyBuilder.pseudoElement str o b = (Throw DuplicateFragmentError, b) ∧
   ∀ t s,
     t ≠ PSEUDO_ELEMENT →
     append_part t s o b =
       (Throw (if single_occurrence t && negb (count_of t b =? 0)
               then DuplicateFragmentError else OutOfOrderError), b)).
Proof.
  intros Hwf.
  assert (later_free PSEUDO_ELEMENT (partsPresence b) = true) as Hlast.
  { apply later_free_counts; [done |].
    intros u Hu. pose proof (part_index_lt u). simpl in Hu. lia. }
  split; [by rewrite isCorrectOrderForNewPart_run, Hlast |].
  change (MyBuilder.pseudoElement str o b)
    with (append_part PSEUDO_ELEMENT str o b).
  split.
  - intros Hnone. by rewrite append_part_run, Hnone, Hlast.
  - intros Hheld. split; [by apply append_part_duplicate |].
    intros t s Ht. rewrite append_part_run.
    destruct (single_occurrence t && negb (count_of t b =? 0)); [done |].
    replace (later_free t (partsPresence b)) with false; [done |].
    symmetry. apply later_taken_counts; [done |].
    exists PSEUDO_ELEMENT. split; [| done].
    destruct t; simpl; try lia. done.
Qed.

Lemma pseudo_element_closes_builder_witness :
  MyBuilder.pseudoElement "after" 0 div_builder =
  (Return 0, added PSEUDO_ELEMENT "after" div_builder).
Proof.
  apply (pseudo_element_closes_builder "after" 0 div_builder); reflexivity.
Defined.
